(** * Lexicographic enumeration of multisets: [get_multisets_Cpp]

    A shallow embedding of [src/get_multisets_Cpp.cpp] and the properties of
    the table it returns.

    The C++ function fills an [arma::mat] with [N] rows and [d] columns.  All
    values it stores are integers between [0] and [n] (an [int]), which a
    double represents exactly, so an entry is modelled as a [Z], a row vector
    as a [list Z] and the matrix as the list of its rows. *)

From stdpp Require Import base list sorting strings.
From Stdlib Require Import ZArith Lia.

Local Open Scope Z_scope.

(** ** The program *)

Module Multisets.

(** [std::runtime_error] with its message. *)
Inductive exception : Type :=
  | runtime_error (what : string).

(** The one failure of the function; the specification calls it
    [InvalidArgument]. *)
Definition InvalidArgument : exception :=
  runtime_error
    "n must be a strictly positive integer and d must be a non-negative integer.".

(** What a call does: it returns the matrix, throws, or (in the model only)
    stops because the [while] loop was given too few steps. *)
Inductive outcome : Type :=
  | Return (result_matrix : list (list Z))
  | Throw (e : exception)
  | OutOfFuel.

(** [current_multiset.subvec(a, b).fill(v)]: the entries at the positions
    [a], ..., [b] become [v]. *)
Definition subvec_fill (a b : nat) (v : Z) (cur : list Z) : list Z :=
  list_inserts a (replicate (S b - a) v) cur.

(** The [for] loop of lines 30-38.  [for_loop n d k cur] runs it from
    [i = k - 1] downwards; the loop ends when [i] drops below [0] or at the
    [break].  The function starts it at [k = d], where [d] is also the length
    of [cur], so every [current_multiset[i]] reads inside the vector and
    [d - 1] is never computed for [d = 0]. *)
Fixpoint for_loop (n : Z) (d k : nat) (cur : list Z) : list Z :=
  match k with
  | O => cur
  | S i =>
      if cur !!! i <? n then
        let cur1 := <[i := cur !!! i + 1]> cur in
        if (i <? d - 1)%nat
        then subvec_fill (i + 1) (d - 1) (cur1 !!! i) cur1
        else cur1
      else for_loop n d i cur
  end.

(** The local variables that the [while] loop changes. *)
Record state : Type := mkState {
  result_matrix : list (list Z);
  current_multiset : list Z;
  row_index : nat
}.

(** One pass through the body of the [while] loop (lines 27-38). *)
Definition loop_body (n : Z) (d : nat) (st : state) : state :=
  {| result_matrix :=
       <[row_index st := current_multiset st]> (result_matrix st);
     current_multiset := for_loop n d d (current_multiset st);
     row_index := S (row_index st) |}.

(** [while (row_index < N)]: every unit of [fuel] pays for one evaluation of
    the loop condition. *)
Fixpoint while_loop (fuel : nat) (n : Z) (d N : nat) (st : state)
  : option state :=
  match fuel with
  | O => None
  | S fuel' =>
      if (row_index st <? N)%nat
      then while_loop fuel' n d N (loop_body n d st)
      else Some st
  end.

(** The state at the first evaluation of the loop condition: the matrix
    [result_matrix(N, d)] (zero-filled), [current_multiset] with [d] ones and
    [row_index = 0]. *)
Definition initial_state (d N : nat) : state :=
  {| result_matrix := replicate N (replicate d 0);
     current_multiset := replicate d 1;
     row_index := 0 |}.

Definition get_multisets_Cpp (fuel : nat) (n d : Z) (N : nat) : outcome :=
  if (n <=? 0) || (d <? 0) then Throw InvalidArgument
  else
    match while_loop fuel n (Z.to_nat d) N (initial_state (Z.to_nat d) N) with
    | Some st => Return (result_matrix st)
    | None => OutOfFuel
    end.

End Multisets.

Import Multisets.

(** ** Definitions for the statements *)

(** [rightmost n cur] is the last position of [cur] that holds a value below
    [n], if there is one. *)
Fixpoint rightmost (n : Z) (cur : list Z) : option nat :=
  match cur with
  | [] => None
  | v :: t =>
      match rightmost n t with
      | Some i => Some (S i)
      | None => if v <? n then Some O else None
      end
  end.

(** The tuple after [cur]: the value at the position [rightmost n cur] goes up
    by one and is copied to every later position. *)
Definition successor (n : Z) (cur : list Z) : list Z :=
  match rightmost n cur with
  | Some i => take i cur ++ replicate (length cur - i) (cur !!! i + 1)
  | None => cur
  end.

(** The first [N] tuples of the walk that starts at [d] ones and moves from a
    tuple to its successor. *)
Definition rows (n : Z) (d N : nat) : list (list Z) :=
  (λ k, Nat.iter k (successor n) (replicate d 1)) <$> seq 0 N.

(** The binomial coefficient, by Pascal's rule. *)
Fixpoint binom (a b : nat) : nat :=
  match a, b with
  | _, O => 1
  | O, S _ => 0
  | S a', S b' => binom a' b' + binom a' b
  end.

(** The number of [d]-element multisets of [{1, ..., n}]:
    the binomial coefficient of [n + d - 1] and [d]. *)
Definition multiset_count (n d : Z) : nat :=
  binom (Z.to_nat (n + d - 1)) (Z.to_nat d).

(** Lexicographic order: the first entry that differs decides. *)
Fixpoint lex_lt (a b : list Z) : Prop :=
  match a, b with
  | x :: a', y :: b' => x < y ∨ (x = y ∧ lex_lt a' b')
  | [], _ :: _ => True
  | _, [] => False
  end.

Definition lex_le (a b : list Z) : Prop := lex_lt a b ∨ a = b.

(** A multiset of size [d] over [{1, ..., n}], as a sorted tuple. *)
Definition is_multiset (n : Z) (d : nat) (t : list Z) : Prop :=
  length t = d ∧ Sorted Z.le t ∧ Forall (λ x, 1 ≤ x ≤ n) t.

(** [multisets_from n d m]: the non-decreasing [d]-tuples over the [m]
    largest values [n - m + 1, ..., n], in lexicographic order.  A tuple
    either starts with the least value [n - m + 1] and goes on with a tuple
    over the same values, or it avoids that value altogether. *)
Fixpoint multisets_from (n : Z) (d : nat) : nat → list (list Z) :=
  match d with
  | O => λ _, [[]]
  | S d' =>
      fix go (m : nat) : list (list Z) :=
        match m with
        | O => []
        | S m' =>
            (cons (n - Z.of_nat m') <$> multisets_from n d' m) ++ go m'
        end
  end.

Definition multisets (n : Z) (d : nat) : list (list Z) :=
  multisets_from n d (Z.to_nat n).

(** [chain n L]: every tuple of [L] but the last has a position to raise,
    and the next tuple of [L] is its successor. *)
Inductive chain (n : Z) : list (list Z) → Prop :=
  | chain_nil : chain n []
  | chain_one t : chain n [t]
  | chain_cons a b L :
      rightmost n a ≠ None → successor n a = b → chain n (b :: L) →
      chain n (a :: b :: L).

(** ** The loop body with its bounds checks

    Armadillo checks the bounds of [row] and [subvec] and the size of what is
    assigned to a row, and raises an error when a check fails; [operator[]]
    is unchecked, so a read or write outside the vector is undefined.  The
    definitions below follow lines 27-38 once more and give [None] as soon as
    one of these accesses leaves the vector or the matrix. *)

Definition subvec_fill_checked (a b : nat) (v : Z) (cur : list Z)
  : option (list Z) :=
  if (a <=? b)%nat && (b <? length cur)%nat
  then Some (subvec_fill a b v cur)
  else None.

Fixpoint for_loop_checked (n : Z) (d k : nat) (cur : list Z)
  : option (list Z) :=
  match k with
  | O => Some cur
  | S i =>
      match cur !! i with
      | None => None
      | Some x =>
          if x <? n then
            let cur1 := <[i := x + 1]> cur in
            if (i <? d - 1)%nat
            then subvec_fill_checked (i + 1) (d - 1) (x + 1) cur1
            else Some cur1
          else for_loop_checked n d i cur
      end
  end.

Definition loop_body_checked (n : Z) (d : nat) (st : state) : option state :=
  match result_matrix st !! row_index st with
  | None => None
  | Some old_row =>
      if (length old_row =? length (current_multiset st))%nat then
        match for_loop_checked n d d (current_multiset st) with
        | None => None
        | Some cur =>
            Some {| result_matrix :=
                      <[row_index st := current_multiset st]>
                        (result_matrix st);
                    current_multiset := cur;
                    row_index := S (row_index st) |}
        end
      else None
  end.

(** ** Runs of the program *)

Example run_3_2_6 :
  get_multisets_Cpp 7 3 2 6 = Return [[1;1];[1;2];[1;3];[2;2];[2;3];[3;3]].
Proof. reflexivity. Qed.

Example run_2_3_4 :
  get_multisets_Cpp 5 2 3 4 = Return [[1;1;1];[1;1;2];[1;2;2];[2;2;2]].
Proof. reflexivity. Qed.

Example run_1_1_2 : get_multisets_Cpp 3 1 1 2 = Return [[1];[1]].
Proof. reflexivity. Qed.

Example run_d0 : get_multisets_Cpp 2 5 0 1 = Return [[]].
Proof. reflexivity. Qed.

Example multisets_3_2 :
  multisets 3 2 = [[1;1];[1;2];[1;3];[2;2];[2;3];[3;3]].
Proof. reflexivity. Qed.

(** ** The [for] loop computes the successor *)

Section successor.
Variable n : Z.

Lemma rightmost_snoc (l : list Z) (v : Z) :
  rightmost n (l ++ [v]) = if v <? n then Some (length l) else rightmost n l.
Proof.
  induction l as [|x l IH]; simpl.
  - by destruct (v <? n).
  - rewrite IH. by destruct (v <? n).
Qed.

Lemma rightmost_None (cur : list Z) :
  rightmost n cur = None ↔ Forall (λ w, n ≤ w) cur.
Proof.
  split.
  - induction cur as [|x t IH]; simpl; [done|].
    destruct (rightmost n t); [done|].
    destruct (Z.ltb_spec x n); [done|]. by constructor; auto.
  - induction 1 as [|x t Hx _ IH]; simpl; [done|].
    rewrite IH. destruct (Z.ltb_spec x n); [lia|done].
Qed.

Lemma rightmost_Some (cur : list Z) (i : nat) :
  rightmost n cur = Some i ↔
  ∃ v, cur !! i = Some v ∧ v < n ∧ Forall (λ w, n ≤ w) (drop (S i) cur).
Proof.
  revert i. induction cur as [|x t IH]; intros i; simpl.
  { split; [done|]. by intros (v & ? & _). }
  assert (Hbelow : ∀ j v, t !! j = Some v → v < n → ¬ Forall (λ w, n ≤ w) t).
  { intros j v Hv ? Hall. rewrite Forall_lookup in Hall.
    specialize (Hall _ _ Hv). simpl in Hall. lia. }
  destruct (rightmost n t) as [k|] eqn:Hk.
  - destruct (proj1 (IH k) eq_refl) as (w & Hw & ? & Hdrop). split.
    + intros [= <-]. by exists w.
    + intros (v & Hv & Hlt & Hall). destruct i as [|i]; simpl in *.
      * rewrite drop_0 in Hall. by destruct (Hbelow _ _ Hw).
      * f_equal. assert (Some k = Some i) as [= ->]; [|done].
        apply IH. by exists v.
  - apply rightmost_None in Hk. destruct (Z.ltb_spec x n).
    + split.
      * intros [= <-]. exists x. by rewrite drop_0.
      * intros (v & Hv & Hlt & _). destruct i as [|i]; [done|].
        simpl in Hv. by destruct (Hbelow _ _ Hv).
    + split; [done|]. intros (v & Hv & Hlt & _).
      destruct i as [|i]; simpl in Hv.
      * injection Hv as <-. lia.
      * by destruct (Hbelow _ _ Hv).
Qed.

(** What lines 32-35 leave behind when they run at position [i]. *)
Lemma increment_and_fill (cur : list Z) (i : nat) (v : Z) :
  (i < length cur)%nat →
  (if (i <? length cur - 1)%nat
   then subvec_fill (i + 1) (length cur - 1) v (<[i := v]> cur)
   else <[i := v]> cur)
  = take i cur ++ replicate (length cur - i) v.
Proof.
  intros Hi. unfold subvec_fill.
  apply list_eq. intros j.
  destruct (decide (j < i)%nat) as [Hlt|Hge].
  - rewrite lookup_app_l by (rewrite length_take; lia).
    rewrite lookup_take_lt by done.
    destruct (Nat.ltb_spec i (length cur - 1)).
    + rewrite list_lookup_inserts_lt by lia.
      rewrite list_lookup_insert_ne by lia. done.
    + rewrite list_lookup_insert_ne by lia. done.
  - rewrite lookup_app_r by (rewrite length_take; lia).
    rewrite length_take, Nat.min_l by lia.
    destruct (decide (j < length cur)%nat) as [Hj|Hj].
    + rewrite lookup_replicate_2 by lia.
      destruct (Nat.ltb_spec i (length cur - 1)).
      * destruct (decide (j = i)) as [->|Hne].
        -- rewrite list_lookup_inserts_lt by lia.
           by rewrite list_lookup_insert_eq.
        -- rewrite list_lookup_inserts
             by (rewrite ?length_replicate, ?length_insert; lia).
           apply lookup_replicate_2. lia.
      * assert (j = i) as -> by lia. by rewrite list_lookup_insert_eq.
    + rewrite (proj1 (lookup_replicate_None _ _ _)) by lia.
      destruct (Nat.ltb_spec i (length cur - 1)).
      * apply lookup_ge_None. rewrite length_inserts, length_insert. lia.
      * apply lookup_ge_None. rewrite length_insert. lia.
Qed.

Lemma for_loop_prefix (cur : list Z) (k : nat) :
  (k ≤ length cur)%nat →
  for_loop n (length cur) k cur =
  match rightmost n (take k cur) with
  | Some i => take i cur ++ replicate (length cur - i) (cur !!! i + 1)
  | None => cur
  end.
Proof.
  induction k as [|i IH]; intros Hk; [done|].
  assert (Hi : cur !! i = Some (cur !!! i))
    by (apply list_lookup_lookup_total_lt; lia).
  rewrite (take_S_r _ _ _ Hi), rightmost_snoc, length_take, Nat.min_l by lia.
  simpl. destruct (cur !!! i <? n); [|apply IH; lia].
  rewrite list_lookup_total_insert_eq by lia.
  apply increment_and_fill. lia.
Qed.

(** The [for] loop of the program computes [successor]. *)
Lemma for_loop_successor (cur : list Z) :
  for_loop n (length cur) (length cur) cur = successor n cur.
Proof.
  rewrite for_loop_prefix by done. by rewrite firstn_all.
Qed.

Lemma rightmost_lt (cur : list Z) (i : nat) :
  rightmost n cur = Some i → (i < length cur)%nat.
Proof.
  intros (v & Hv & _)%rightmost_Some. by apply lookup_lt_Some in Hv.
Qed.

Lemma length_successor (cur : list Z) :
  length (successor n cur) = length cur.
Proof.
  unfold successor. destruct (rightmost n cur) as [i|] eqn:Hi; [|done].
  apply rightmost_lt in Hi.
  rewrite length_app, length_take, length_replicate. lia.
Qed.

Lemma length_iter_successor (k : nat) (cur : list Z) :
  length (Nat.iter k (successor n) cur) = length cur.
Proof.
  induction k as [|k IH]; simpl; [done|]. by rewrite length_successor.
Qed.

End successor.

(** ** The [while] loop *)

Section while_loop.
Variables (n : Z) (d N : nat).

Lemma length_rows (j : nat) : length (rows n d j) = j.
Proof. unfold rows. by rewrite length_fmap, length_seq. Qed.

Lemma rows_S (j : nat) :
  rows n d (S j) = rows n d j ++ [Nat.iter j (successor n) (replicate d 1)].
Proof. unfold rows. by rewrite seq_S, fmap_app. Qed.

Lemma lookup_rows (j k : nat) :
  (k < j)%nat →
  rows n d j !! k = Some (Nat.iter k (successor n) (replicate d 1)).
Proof.
  intros Hk. unfold rows. rewrite list_lookup_fmap, lookup_seq_lt by done.
  done.
Qed.

(** The state after [j] passes through the loop body, whatever the matrix
    held when it was allocated: its first [j] rows are written, the others
    are as they were. *)
Lemma iter_loop_body_from (init : list (list Z)) (j : nat) :
  length init = N → (j ≤ N)%nat →
  Nat.iter j (loop_body n d)
    {| result_matrix := init; current_multiset := replicate d 1;
       row_index := 0 |} =
  {| result_matrix := rows n d j ++ drop j init;
     current_multiset := Nat.iter j (successor n) (replicate d 1);
     row_index := j |}.
Proof.
  intros Hinit. induction j as [|j IH]; intros Hj; [done|].
  rewrite !Nat.iter_succ, IH by lia. unfold loop_body; cbn [result_matrix
    current_multiset row_index]. f_equal.
  - destruct (lookup_lt_is_Some_2 init j) as [row Hrow]; [lia|].
    rewrite (drop_S _ _ _ Hrow), rows_S, <- (assoc_L (++)).
    pose proof (length_rows j) as Hlen.
    rewrite <- Hlen at 1.
    by rewrite (insert_app_r_alt _ _ (length (rows n d j))), Nat.sub_diag.
  - rewrite <- for_loop_successor.
    by rewrite length_iter_successor, length_replicate.
Qed.

Lemma iter_loop_body (j : nat) :
  (j ≤ N)%nat →
  Nat.iter j (loop_body n d) (initial_state d N) =
  {| result_matrix := rows n d j ++ replicate (N - j) (replicate d 0);
     current_multiset := Nat.iter j (successor n) (replicate d 1);
     row_index := j |}.
Proof.
  intros Hj. unfold initial_state.
  rewrite iter_loop_body_from by (by rewrite ?length_replicate).
  by rewrite drop_replicate.
Qed.

Lemma row_index_iter (j : nat) (st : state) :
  row_index (Nat.iter j (loop_body n d) st) = (j + row_index st)%nat.
Proof. induction j as [|j IH]; simpl; [done|]. by rewrite IH. Qed.

(** With more fuel than iterations left, the loop ends, after exactly
    [N - row_index st] passes through its body. *)
Lemma while_loop_Some (fuel : nat) (st : state) :
  (N - row_index st < fuel)%nat →
  while_loop fuel n d N st =
  Some (Nat.iter (N - row_index st) (loop_body n d) st).
Proof.
  revert st. induction fuel as [|fuel IH]; intros st Hfuel; [lia|].
  simpl. destruct (Nat.ltb_spec (row_index st) N) as [Hlt|Hge].
  - rewrite IH by (simpl; lia). simpl.
    replace (N - row_index st)%nat with (S (N - S (row_index st))) by lia.
    by rewrite Nat.iter_succ_r.
  - by replace (N - row_index st)%nat with O by lia.
Qed.

(** With less, the model gives up. *)
Lemma while_loop_None (fuel : nat) (st : state) :
  (fuel ≤ N - row_index st)%nat → while_loop fuel n d N st = None.
Proof.
  revert st. induction fuel as [|fuel IH]; intros st Hfuel; [done|].
  simpl. destruct (Nat.ltb_spec (row_index st) N) as [Hlt|Hge]; [|lia].
  apply IH. simpl. lia.
Qed.

Lemma while_loop_from (init : list (list Z)) (fuel : nat) :
  length init = N → (N < fuel)%nat →
  while_loop fuel n d N
    {| result_matrix := init; current_multiset := replicate d 1;
       row_index := 0 |} =
  Some {| result_matrix := rows n d N;
          current_multiset := Nat.iter N (successor n) (replicate d 1);
          row_index := N |}.
Proof.
  intros Hinit Hfuel. rewrite while_loop_Some by (simpl; lia). simpl.
  rewrite Nat.sub_0_r, iter_loop_body_from by done.
  by rewrite drop_ge, (right_id_L [] (++)) by lia.
Qed.

Lemma while_loop_initial (fuel : nat) :
  (N < fuel)%nat →
  while_loop fuel n d N (initial_state d N) =
  Some {| result_matrix := rows n d N;
          current_multiset := Nat.iter N (successor n) (replicate d 1);
          row_index := N |}.
Proof.
  intros Hfuel. rewrite while_loop_Some by (simpl; lia). simpl.
  rewrite Nat.sub_0_r, iter_loop_body, Nat.sub_diag by done. simpl.
  by rewrite (right_id_L [] (++)).
Qed.

End while_loop.

(** The table that a call returns. *)
Lemma get_multisets_Cpp_rows (fuel : nat) (n d : Z) (N : nat) :
  1 ≤ n → 0 ≤ d → (N < fuel)%nat →
  get_multisets_Cpp fuel n d N = Return (rows n (Z.to_nat d) N).
Proof.
  intros Hn Hd Hfuel. unfold get_multisets_Cpp.
  destruct (Z.leb_spec n 0); [lia|]. destruct (Z.ltb_spec d 0); [lia|]. simpl.
  by rewrite while_loop_initial.
Qed.

(** ** The reference enumeration *)

Section enumeration.
Variable n : Z.

Lemma multisets_from_S (d m : nat) :
  multisets_from n (S d) (S m) =
  (cons (n - Z.of_nat m) <$> multisets_from n d (S m))
    ++ multisets_from n (S d) m.
Proof. done. Qed.

Lemma binom_pascal (a b : nat) :
  binom (S a) (S b) = (binom a b + binom a (S b))%nat.
Proof. done. Qed.

Lemma binom_lt (a b : nat) : (a < b)%nat → binom a b = O.
Proof.
  revert b. induction a as [|a IH]; intros [|b] ?; simpl; try lia.
  by rewrite !IH by lia.
Qed.

(** [binom] is the binomial coefficient: [a! / (b! (a - b)!)]. *)
Lemma binom_fact (a b : nat) :
  (b ≤ a)%nat → (binom a b * (fact b * fact (a - b)) = fact a)%nat.
Proof.
  revert b. induction a as [|a IH]; intros [|b] Hb; [done|lia| |].
  { cbn [binom]. rewrite Nat.sub_0_r. change (fact 0) with 1%nat. lia. }
  rewrite binom_pascal. destruct (decide (b = a)) as [->|Hne].
  - rewrite (binom_lt a (S a)), Nat.sub_diag by lia.
    pose proof (IH a ltac:(lia)) as IHa. rewrite Nat.sub_diag in IHa.
    change (fact (S a)) with (S a * fact a)%nat.
    change (fact 0) with 1%nat in *. nia.
  - assert (∃ k, a = (S b + k)%nat) as [k ->] by (exists (a - S b)%nat; lia).
    pose proof (IH b ltac:(lia)) as IH1.
    pose proof (IH (S b) ltac:(lia)) as IH2.
    replace (S (S b + k) - S b)%nat with (S k) by lia.
    replace (S b + k - b)%nat with (S k) in IH1 by lia.
    replace (S b + k - S b)%nat with k in IH2 by lia.
    change (fact (S (S b + k))) with (S (S b + k) * fact (S b + k))%nat.
    change (fact (S b)) with (S b * fact b)%nat in *.
    change (fact (S k)) with (S k * fact k)%nat in *.
    transitivity
      (S b * (binom (S b + k) b * (fact b * (S k * fact k)))
       + S k * (binom (S b + k) (S b) * (S b * fact b * fact k)))%nat;
      [lia|].
    rewrite IH1, IH2. lia.
Qed.

Lemma length_multisets_from (d m : nat) :
  length (multisets_from n d m) = binom (m + d - 1) d.
Proof.
  revert m. induction d as [|d IHd]; intros m.
  - simpl. by destruct (m + 0 - 1)%nat.
  - induction m as [|m IHm].
    + simpl. rewrite Nat.sub_0_r. by rewrite binom_lt by lia.
    + rewrite multisets_from_S, length_app, length_fmap, IHd, IHm.
      replace (S m + d - 1)%nat with (m + d)%nat by lia.
      replace (m + S d - 1)%nat with (m + d)%nat by lia.
      replace (S m + S d - 1)%nat with (S (m + d)) by lia.
      by rewrite binom_pascal.
Qed.

Lemma Sorted_le_cons (v : Z) (t : list Z) :
  Sorted Z.le (v :: t) ↔ Forall (λ x, v ≤ x) t ∧ Sorted Z.le t.
Proof.
  split.
  - intros Hs. apply (Sorted_StronglySorted _) in Hs.
    apply StronglySorted_cons in Hs as [? Hs]. split; [done|].
    by apply StronglySorted_Sorted.
  - intros [Hall Hs]. constructor; [done|].
    destruct Hall; by constructor.
Qed.

Lemma elem_of_multisets_from (d m : nat) (t : list Z) :
  t ∈ multisets_from n d m ↔
  length t = d ∧ Sorted Z.le t ∧ Forall (λ x, n - Z.of_nat m < x ≤ n) t.
Proof.
  revert m t. induction d as [|d IHd]; intros m t.
  - simpl. rewrite list_elem_of_singleton. split.
    + intros ->. by repeat constructor.
    + intros [Hlen _]. by destruct t.
  - induction m as [|m IHm].
    + simpl. split; [by intros ?%elem_of_nil|].
      intros (Hlen & _ & Hall). destruct t as [|v t]; [done|].
      apply Forall_cons in Hall as [? _]. lia.
    + rewrite multisets_from_S, elem_of_app, list_elem_of_fmap, IHm.
      setoid_rewrite IHd. split.
      * intros [(t' & -> & Hlen & Hs & Hall)|(Hlen & Hs & Hall)].
        -- split; [simpl; lia|]. split.
           ++ apply Sorted_le_cons. split; [|done].
              eapply Forall_impl; [exact Hall|]. simpl. lia.
           ++ constructor; [lia|done].
        -- do 2 (split; [done|]).
           eapply Forall_impl; [exact Hall|]. simpl. lia.
      * intros (Hlen & Hs & Hall). destruct t as [|v t]; [done|].
        apply Sorted_le_cons in Hs as [Hv Hs].
        apply Forall_cons in Hall as [Hvr Hall].
        destruct (decide (v = n - Z.of_nat m)) as [->|Hne].
        -- left. exists t. split; [done|]. split; [simpl in Hlen; lia|].
           split; [done|]. done.
        -- right. split; [done|]. split; [by apply Sorted_le_cons|].
           constructor; [lia|].
           rewrite Forall_forall in Hv, Hall |- *. intros x Hx.
           specialize (Hv x Hx). specialize (Hall x Hx). simpl in *. lia.
Qed.

Lemma lex_lt_irrefl (a : list Z) : ¬ lex_lt a a.
Proof.
  induction a as [|x a IH]; simpl; [by intros []|].
  intros [?|[_ ?]]; [lia|by apply IH].
Qed.

Lemma lex_lt_trans (a b c : list Z) : lex_lt a b → lex_lt b c → lex_lt a c.
Proof.
  revert b c. induction a as [|x a IH]; intros [|y b] [|z c]; simpl; try done.
  intros [?|[-> Hab]] [?|[-> Hbc]]; [left; lia..|].
  right. split; [done|]. by apply (IH b).
Qed.

Lemma lex_lt_cons (v : Z) (a b : list Z) :
  lex_lt a b → lex_lt (v :: a) (v :: b).
Proof. intros. by right. Qed.

Lemma sorted_multisets_from (d m : nat) :
  StronglySorted lex_lt (multisets_from n d m).
Proof.
  revert m. induction d as [|d IHd]; intros m.
  - simpl. by repeat constructor.
  - induction m as [|m IHm]; [by constructor|].
    rewrite multisets_from_S. apply StronglySorted_app_2; [| |done].
    + intros x1 x2 (t & -> & _)%list_elem_of_fmap
        (Hlen & _ & Hall)%elem_of_multisets_from.
      destruct x2 as [|w x2]; [done|].
      apply Forall_cons in Hall as [? _]. simpl. lia.
    + apply (StronglySorted_fmap _ lex_lt lex_lt); [|done].
      intros. by apply lex_lt_cons.
Qed.

Lemma head_multisets_from (d m : nat) :
  head (multisets_from n d (S m)) = Some (replicate d (n - Z.of_nat m)).
Proof.
  induction d as [|d IHd]; [done|].
  rewrite multisets_from_S.
  destruct (multisets_from n d (S m)) as [|t L]; [done|].
  simpl in *. by injection IHd as ->.
Qed.

Lemma last_multisets_from (d m : nat) :
  last (multisets_from n d (S m)) = Some (replicate d n).
Proof.
  revert m. induction d as [|d IHd]; intros m; [done|].
  induction m as [|m IHm].
  - rewrite multisets_from_S. simpl multisets_from at 2.
    rewrite (right_id_L [] (++)), fmap_last, IHd. simpl.
    by rewrite Z.sub_0_r.
  - rewrite multisets_from_S, last_app, IHm. done.
Qed.

(** *** The enumeration is a walk along [successor] *)

Lemma successor_cons_Some (v : Z) (t : list Z) :
  rightmost n t ≠ None →
  rightmost n (v :: t) ≠ None ∧ successor n (v :: t) = v :: successor n t.
Proof.
  unfold successor. simpl.
  destruct (rightmost n t) as [i|]; [|done]. by intros _.
Qed.

Lemma rightmost_replicate (k : nat) (v : Z) :
  n ≤ v → rightmost n (replicate k v) = None.
Proof. intros. apply rightmost_None. by apply Forall_replicate. Qed.

Lemma successor_cons_None (v : Z) (k : nat) :
  v < n →
  rightmost n (v :: replicate k n) ≠ None ∧
  successor n (v :: replicate k n) = replicate (S k) (v + 1).
Proof.
  intros Hv. unfold successor. simpl.
  rewrite rightmost_replicate by lia.
  destruct (Z.ltb_spec v n); [|lia]. simpl.
  by rewrite length_replicate.
Qed.

Lemma successor_terminal (k : nat) :
  successor n (replicate k n) = replicate k n.
Proof. unfold successor. by rewrite rightmost_replicate. Qed.

Lemma chain_fmap_cons (v : Z) (L : list (list Z)) :
  chain n L → chain n (cons v <$> L).
Proof.
  induction 1 as [|t|a b L Ha Hb _ IH]; csimpl; [constructor..|].
  destruct (successor_cons_Some v a Ha) as [? Hs].
  constructor; [done| |done]. by rewrite Hs, Hb.
Qed.

Lemma chain_app (L1 L2 : list (list Z)) :
  chain n L1 → chain n L2 →
  (∀ a b, last L1 = Some a → head L2 = Some b →
          rightmost n a ≠ None ∧ successor n a = b) →
  chain n (L1 ++ L2).
Proof.
  intros H1 H2. induction H1 as [|t|a b L Ha Hb _ IH]; intros Hlink.
  - done.
  - destruct L2 as [|b L2]; [constructor|].
    destruct (Hlink t b) as [? ?]; [done..|]. by constructor.
  - simpl. constructor; [done..|]. apply IH.
    intros a' b' Hl. apply Hlink. by rewrite last_cons_cons.
Qed.

Lemma chain_multisets_from (d m : nat) : chain n (multisets_from n d m).
Proof.
  revert m. induction d as [|d IHd]; intros m; [constructor|].
  induction m as [|m IHm]; [constructor|].
  rewrite multisets_from_S.
  apply chain_app; [by apply chain_fmap_cons|done|].
  intros a b. rewrite fmap_last, last_multisets_from.
  intros [= <-]. destruct m as [|m]; [done|].
  rewrite head_multisets_from. intros [= <-].
  replace (n - Z.of_nat m) with (n - Z.of_nat (S m) + 1) by lia.
  apply successor_cons_None. lia.
Qed.

Lemma chain_lookup (a : list Z) (L : list (list Z)) (k : nat) :
  chain n (a :: L) → (k < length (a :: L))%nat →
  (a :: L) !! k = Some (Nat.iter k (successor n) a).
Proof.
  revert a L. induction k as [|k IH]; intros a L Hc Hk; [done|].
  inversion Hc as [| |a' b L' Ha Hb Hc']; subst; [simpl in Hk; lia|].
  rewrite Nat.iter_succ_r. simpl. apply (IH (successor n a) L'); [done|].
  simpl in *. lia.
Qed.

Lemma iter_successor_terminal (j k : nat) :
  Nat.iter j (successor n) (replicate k n) = replicate k n.
Proof.
  induction j as [|j IH]; [done|].
  by rewrite Nat.iter_succ, IH, successor_terminal.
Qed.

End enumeration.

(** ** The table in terms of the enumeration *)

Section table.
Variables (n : Z) (d : nat).
Hypothesis n_pos : 1 ≤ n.

Lemma multisets_cons :
  ∃ L, multisets n d = replicate d 1 :: L.
Proof.
  unfold multisets.
  destruct (Z.to_nat n) as [|m] eqn:Hm; [lia|].
  pose proof (head_multisets_from n d m) as Hhd.
  replace (n - Z.of_nat m) with 1 in Hhd by lia.
  destruct (multisets_from n d (S m)) as [|t L]; [done|].
  injection Hhd as ->. by exists L.
Qed.

Lemma last_multisets : last (multisets n d) = Some (replicate d n).
Proof.
  unfold multisets.
  destruct (Z.to_nat n) as [|m] eqn:Hm; [lia|]. apply last_multisets_from.
Qed.

Lemma length_multisets_pos : (0 < length (multisets n d))%nat.
Proof. destruct multisets_cons as [L ->]. simpl. lia. Qed.

Lemma elem_of_multisets (t : list Z) :
  t ∈ multisets n d ↔ is_multiset n d t.
Proof.
  unfold multisets, is_multiset. rewrite elem_of_multisets_from.
  replace (n - Z.of_nat (Z.to_nat n)) with 0 by lia.
  do 2 (apply and_iff_compat_l). apply Forall_iff. simpl. lia.
Qed.

Lemma sorted_multisets : StronglySorted lex_lt (multisets n d).
Proof. apply sorted_multisets_from. Qed.

Lemma lookup_multisets (k : nat) :
  (k < length (multisets n d))%nat →
  multisets n d !! k = Some (Nat.iter k (successor n) (replicate d 1)).
Proof.
  intros Hk. pose proof (chain_multisets_from n d (Z.to_nat n)) as Hc.
  fold (multisets n d) in Hc. destruct multisets_cons as [L HL].
  rewrite HL in *. by apply chain_lookup.
Qed.

Lemma iter_successor_ge (k : nat) :
  (length (multisets n d) - 1 ≤ k)%nat →
  Nat.iter k (successor n) (replicate d 1) = replicate d n.
Proof.
  intros Hk. pose proof length_multisets_pos as Hpos.
  replace k with (k - (length (multisets n d) - 1)
                  + (length (multisets n d) - 1))%nat by lia.
  rewrite Nat.iter_add.
  assert (Nat.iter (length (multisets n d) - 1) (successor n)
            (replicate d 1) = replicate d n) as ->.
  { pose proof last_multisets as Hl. rewrite last_lookup in Hl.
    rewrite <- Nat.sub_1_r, lookup_multisets in Hl by lia. by injection Hl. }
  apply iter_successor_terminal.
Qed.

(** The rows of the table: the enumeration, cut after [N] rows, or followed
    by copies of its last tuple when [N] is larger than its length. *)
Lemma rows_multisets (N : nat) :
  rows n d N =
  take N (multisets n d)
    ++ replicate (N - length (multisets n d)) (replicate d n).
Proof.
  apply list_eq. intros k.
  destruct (decide (k < N)%nat) as [HkN|HkN].
  - rewrite lookup_rows by done.
    destruct (decide (k < length (multisets n d))%nat) as [Hk|Hk].
    + rewrite lookup_app_l by (rewrite length_take; lia).
      by rewrite lookup_take_lt, lookup_multisets.
    + rewrite lookup_app_r by (rewrite length_take; lia).
      rewrite lookup_replicate_2 by (rewrite length_take; lia).
      rewrite iter_successor_ge by lia. done.
  - rewrite !(proj2 (lookup_ge_None _ _)); [done| |].
    + rewrite length_app, length_take, length_replicate. lia.
    + rewrite length_rows. lia.
Qed.

End table.

Lemma length_multisets (n d : Z) :
  1 ≤ n → 0 ≤ d → length (multisets n (Z.to_nat d)) = multiset_count n d.
Proof.
  intros Hn Hd. unfold multisets, multiset_count.
  rewrite length_multisets_from. f_equal. lia.
Qed.

Lemma StronglySorted_NoDup (L : list (list Z)) :
  StronglySorted lex_lt L → NoDup L.
Proof.
  induction 1 as [|a L _ IH Hall]; constructor; [|done].
  intros Hin. rewrite Forall_forall in Hall.
  by apply (lex_lt_irrefl a), Hall.
Qed.

Lemma Sorted_lex_lt_NoDup (L : list (list Z)) : Sorted lex_lt L → NoDup L.
Proof.
  intros Hs. apply StronglySorted_NoDup, Sorted.Sorted_StronglySorted; [|done].
  intros a b c. apply lex_lt_trans.
Qed.

Lemma StronglySorted_take (N : nat) (L : list (list Z)) :
  StronglySorted lex_lt L → StronglySorted lex_lt (take N L).
Proof.
  intros Hs. rewrite <- (take_drop N L) in Hs.
  by apply StronglySorted_app_1_l in Hs.
Qed.

(** ** The claims *)

(** C1. For every [n >= 1], [d >= 0] and [count] equal to the binomial
    coefficient of [n + d - 1] and [d], the call returns a table with exactly
    [count] rows of [d] columns; its rows are precisely the non-decreasing
    [d]-tuples over [1..n], in strictly increasing lexicographic order; the
    first row is [d] ones and the last row is [d] copies of [n] (also when
    [d = 0], where both are the empty row).  For [n = 3], [d = 2] the rows are
    [1,1], [1,2], [1,3], [2,2], [2,3], [3,3]. *)
Theorem exact_count_enumerates_all (fuel : nat) (n d : Z) :
  1 ≤ n → 0 ≤ d → (multiset_count n d < fuel)%nat →
  ∃ m, get_multisets_Cpp fuel n d (multiset_count n d) = Return m ∧
       length m = multiset_count n d ∧
       Forall (λ row, length row = Z.to_nat d) m ∧
       (∀ t, t ∈ m ↔ is_multiset n (Z.to_nat d) t) ∧
       StronglySorted lex_lt m ∧
       head m = Some (replicate (Z.to_nat d) 1) ∧
       last m = Some (replicate (Z.to_nat d) n) ∧
       (n = 3 → d = 2 → m = [[1;1];[1;2];[1;3];[2;2];[2;3];[3;3]]).
Proof.
  intros Hn Hd Hfuel. exists (multisets n (Z.to_nat d)).
  assert (Hrows : rows n (Z.to_nat d) (multiset_count n d)
                  = multisets n (Z.to_nat d)).
  { rewrite rows_multisets, <- length_multisets by done.
    rewrite firstn_all, Nat.sub_diag. apply (right_id_L [] (++)). }
  split; [by rewrite get_multisets_Cpp_rows, Hrows|].
  split; [by apply length_multisets|].
  split.
  { apply Forall_forall. by intros t (? & _)%elem_of_multisets. }
  split; [intros t; by apply elem_of_multisets|].
  split; [apply sorted_multisets|].
  split; [by destruct (multisets_cons n (Z.to_nat d) Hn) as [L ->]|].
  split; [by apply last_multisets|].
  by intros -> ->.
Qed.

Lemma exact_count_enumerates_all_witness :
  1 ≤ 3 ∧ 0 ≤ 2 ∧ (multiset_count 3 2 < 7)%nat ∧
  ∃ m, get_multisets_Cpp 7 3 2 (multiset_count 3 2) = Return m ∧
       length m = multiset_count 3 2 ∧
       Forall (λ row, length row = Z.to_nat 2) m ∧
       (∀ t, t ∈ m ↔ is_multiset 3 (Z.to_nat 2) t) ∧
       StronglySorted lex_lt m ∧
       head m = Some (replicate (Z.to_nat 2) 1) ∧
       last m = Some (replicate (Z.to_nat 2) 3) ∧
       (3 = 3 → 2 = 2 → m = [[1;1];[1;2];[1;3];[2;2];[2;3];[3;3]]).
Proof.
  split; [lia|]. split; [lia|]. split; [vm_compute; lia|].
  apply (exact_count_enumerates_all 7 3 2); [lia | lia | vm_compute; lia].
Defined.

(** C2. For [n >= 1], [d >= 1] and a non-decreasing tuple [cur] over [1..n],
    one run of the [for] loop, which scans from position [d - 1] down to
    position [0], stops at the first position [i] from the right whose value
    [v] is below [n]: it leaves the positions before [i] alone and writes
    [v + 1] at [i] and at every position after [i].  When no value is below
    [n] (then [cur] is [d] copies of [n]) the tuple is left as it is. *)
Theorem for_loop_step (n : Z) (d : nat) (cur : list Z) :
  1 ≤ n → (1 ≤ d)%nat → is_multiset n d cur →
  (∀ i v, cur !! i = Some v → v < n →
          (∀ j w, (i < j)%nat → cur !! j = Some w → ¬ w < n) →
          for_loop n d d cur = take i cur ++ replicate (d - i) (v + 1)) ∧
  ((∀ j w, cur !! j = Some w → ¬ w < n) →
   for_loop n d d cur = cur ∧ cur = replicate d n).
Proof.
  intros Hn Hd (Hlen & _ & Hrange). subst d.
  rewrite for_loop_successor. unfold successor. split.
  - intros i v Hv Hlt Hafter.
    assert (rightmost n cur = Some i) as ->.
    { apply rightmost_Some. exists v. do 2 (split; [done|]).
      apply Forall_lookup. intros j w Hw. rewrite lookup_drop in Hw.
      specialize (Hafter (S i + j)%nat w ltac:(lia) Hw). lia. }
    by rewrite (list_lookup_total_correct _ _ _ Hv).
  - intros Hall.
    assert (Hge : Forall (λ w, n ≤ w) cur).
    { apply Forall_lookup. intros j w Hw. specialize (Hall _ _ Hw). lia. }
    rewrite (proj2 (rightmost_None n cur) Hge). split; [done|].
    symmetry. apply replicate_as_Forall. split; [done|].
    rewrite Forall_forall in Hge, Hrange |- *. intros x Hx.
    specialize (Hge x Hx). specialize (Hrange x Hx). simpl in *. lia.
Qed.

Lemma for_loop_step_witness :
  1 ≤ 3 ∧ (1 ≤ 3)%nat ∧ is_multiset 3 3 [1; 2; 3] ∧
  for_loop 3 3 3 [1; 2; 3] = [1; 3; 3].
Proof.
  assert (Hm : is_multiset 3 3 [1; 2; 3]).
  { split; [done|]. split; [repeat constructor; lia|].
    repeat constructor; lia. }
  split; [lia|]. split; [lia|]. split; [exact Hm|].
  apply (proj1 (for_loop_step 3 3 [1; 2; 3] ltac:(lia) ltac:(lia) Hm) 1%nat 2);
    [done|lia|].
  intros [|[|[|j]]] w ?; simpl; intros [= <-]; lia.
Defined.

(** C3, as stated, fails: for [n = 1], [d = 1] and [count = 2] the call
    succeeds and returns the row [1] twice, so the rows are neither strictly
    increasing nor pairwise different. *)
Lemma oversized_count_repeats_rows :
  ∃ m, get_multisets_Cpp 3 1 1 2 = Return m ∧
       ¬ Sorted lex_lt m ∧ ¬ NoDup m.
Proof.
  exists [[1]; [1]]. split; [done|].
  assert (Hdup : ¬ NoDup [[1]; [1]]).
  { intros Hnd.
    by pose proof (NoDup_lookup _ 0%nat 1%nat [1] Hnd eq_refl eq_refl). }
  split; [|done]. by intros ?%Sorted_lex_lt_NoDup.
Qed.

(** C3, amended.  For every call with [n >= 1], [d >= 0] and [count] at most
    the binomial coefficient of [n + d - 1] and [d], the rows of the returned
    table are strictly increasing in lexicographic order and no two of them
    are identical; for a larger [count] both properties fail. *)
Theorem strictly_increasing_up_to_count (fuel : nat) (n d : Z) (N : nat) :
  1 ≤ n → 0 ≤ d → (N < fuel)%nat →
  ∃ m, get_multisets_Cpp fuel n d N = Return m ∧
       ((N ≤ multiset_count n d)%nat → StronglySorted lex_lt m ∧ NoDup m) ∧
       ((multiset_count n d < N)%nat → ¬ Sorted lex_lt m ∧ ¬ NoDup m).
Proof.
  intros Hn Hd Hfuel. exists (rows n (Z.to_nat d) N).
  split; [by apply get_multisets_Cpp_rows|].
  rewrite rows_multisets, <- length_multisets by done.
  set (E := multisets n (Z.to_nat d)). split.
  - intros HN. replace (N - length E)%nat with O by lia. simpl.
    rewrite (right_id_L [] (++)).
    assert (StronglySorted lex_lt (take N E))
      by apply StronglySorted_take, sorted_multisets.
    split; [done|]. by apply StronglySorted_NoDup.
  - intros HN. pose proof (length_multisets_pos n (Z.to_nat d) Hn) as Hpos.
    fold E in Hpos.
    assert (Hdup : ¬ NoDup (take N E ++
               replicate (N - length E) (replicate (Z.to_nat d) n))).
    { intros Hnd. rewrite take_ge in Hnd by lia.
      pose proof (last_multisets n (Z.to_nat d) Hn) as Hlast. fold E in Hlast.
      rewrite last_lookup in Hlast.
      assert (Nat.pred (length E) = length E); [|lia].
      eapply (NoDup_lookup _ _ _ _ Hnd).
      - by rewrite lookup_app_l by lia.
      - rewrite lookup_app_r, Nat.sub_diag by lia.
        apply lookup_replicate_2. lia. }
    split; [|done]. by intros ?%Sorted_lex_lt_NoDup.
Qed.

Lemma strictly_increasing_up_to_count_witness :
  1 ≤ 3 ∧ 0 ≤ 2 ∧ (4 < 5)%nat ∧
  ∃ m, get_multisets_Cpp 5 3 2 4 = Return m ∧
       ((4 ≤ multiset_count 3 2)%nat → StronglySorted lex_lt m ∧ NoDup m) ∧
       ((multiset_count 3 2 < 4)%nat → ¬ Sorted lex_lt m ∧ ¬ NoDup m).
Proof.
  split; [lia|]. split; [lia|]. split; [lia|].
  apply (strictly_increasing_up_to_count 5 3 2 4); lia.
Defined.

(** C4. For [n >= 1], [d >= 0] and [count] above the binomial coefficient [C]
    of [n + d - 1] and [d], the call does not fail: its first [C] rows are
    the whole enumeration, which ends with [d] copies of [n] at row [C - 1],
    and every row from index [C] on is that same tuple. *)
Theorem oversized_count_repeats_terminal (fuel : nat) (n d : Z) (N : nat) :
  1 ≤ n → 0 ≤ d → (multiset_count n d < N)%nat → (N < fuel)%nat →
  ∃ m, get_multisets_Cpp fuel n d N = Return m ∧
       m = multisets n (Z.to_nat d)
             ++ replicate (N - multiset_count n d) (replicate (Z.to_nat d) n) ∧
       m !! (multiset_count n d - 1)%nat = Some (replicate (Z.to_nat d) n) ∧
       ∀ k, (multiset_count n d ≤ k < N)%nat →
            m !! k = Some (replicate (Z.to_nat d) n).
Proof.
  intros Hn Hd HN Hfuel. exists (rows n (Z.to_nat d) N).
  split; [by apply get_multisets_Cpp_rows|].
  rewrite rows_multisets, <- length_multisets by done.
  set (E := multisets n (Z.to_nat d)).
  assert (HE : length E = multiset_count n d) by by apply length_multisets.
  pose proof (length_multisets_pos n (Z.to_nat d) Hn) as Hpos. fold E in Hpos.
  rewrite take_ge by lia. split; [done|]. split.
  - rewrite lookup_app_l by lia.
    rewrite Nat.sub_1_r, <- last_lookup. by apply last_multisets.
  - intros k Hk. rewrite lookup_app_r by lia. apply lookup_replicate_2. lia.
Qed.

Lemma oversized_count_repeats_terminal_witness :
  1 ≤ 2 ∧ 0 ≤ 1 ∧ (multiset_count 2 1 < 4)%nat ∧ (4 < 5)%nat ∧
  ∃ m, get_multisets_Cpp 5 2 1 4 = Return m ∧
       m = multisets 2 (Z.to_nat 1)
             ++ replicate (4 - multiset_count 2 1) (replicate (Z.to_nat 1) 2) ∧
       m !! (multiset_count 2 1 - 1)%nat = Some (replicate (Z.to_nat 1) 2) ∧
       ∀ k, (multiset_count 2 1 ≤ k < 4)%nat →
            m !! k = Some (replicate (Z.to_nat 1) 2).
Proof.
  split; [lia|]. split; [lia|]. split; [vm_compute; lia|]. split; [lia|].
  apply (oversized_count_repeats_terminal 5 2 1 4);
    [lia | lia | vm_compute; lia | lia].
Defined.

(** C5. For [n >= 1], [d >= 0] and [count] below the binomial coefficient [C]
    of [n + d - 1] and [d], the call returns exactly the first [count] rows of
    the full sequence: the strictly increasing list of all non-decreasing
    [d]-tuples over [1..n], which is also what the call with [count = C]
    returns.  For [n = 3], [d = 2], [count = 3] the rows are [1,1], [1,2],
    [1,3]; for [count = 0] there is no row. *)
Theorem undersized_count_truncates (fuel : nat) (n d : Z) (N : nat) :
  1 ≤ n → 0 ≤ d → (N < multiset_count n d)%nat → (N < fuel)%nat →
  ∃ m full,
    get_multisets_Cpp fuel n d N = Return m ∧
    get_multisets_Cpp (S (multiset_count n d)) n d (multiset_count n d)
      = Return full ∧
    StronglySorted lex_lt full ∧
    (∀ t, t ∈ full ↔ is_multiset n (Z.to_nat d) t) ∧
    m = take N full ∧
    length m = N ∧
    StronglySorted lex_lt m ∧
    (n = 3 → d = 2 → N = 3%nat → m = [[1;1];[1;2];[1;3]]) ∧
    (N = 0%nat → m = []).
Proof.
  intros Hn Hd HN Hfuel.
  exists (rows n (Z.to_nat d) N), (multisets n (Z.to_nat d)).
  assert (HE : length (multisets n (Z.to_nat d)) = multiset_count n d)
    by by apply length_multisets.
  assert (Hrows : rows n (Z.to_nat d) N = take N (multisets n (Z.to_nat d))).
  { rewrite rows_multisets by done.
    replace (N - length (multisets n (Z.to_nat d)))%nat with O by lia.
    apply (right_id_L [] (++)). }
  split; [by apply get_multisets_Cpp_rows|].
  split.
  { rewrite get_multisets_Cpp_rows, rows_multisets, <- HE by (done || lia).
    rewrite firstn_all, Nat.sub_diag. f_equal. apply (right_id_L [] (++)). }
  split; [apply sorted_multisets|].
  split; [intros t; by apply elem_of_multisets|].
  split; [done|].
  split; [apply length_rows|].
  split; [rewrite Hrows; apply StronglySorted_take, sorted_multisets|].
  split; [by intros -> -> ->|]. by intros ->.
Qed.

Lemma undersized_count_truncates_witness :
  1 ≤ 3 ∧ 0 ≤ 2 ∧ (3 < multiset_count 3 2)%nat ∧ (3 < 4)%nat ∧
  ∃ m full,
    get_multisets_Cpp 4 3 2 3 = Return m ∧
    get_multisets_Cpp (S (multiset_count 3 2)) 3 2 (multiset_count 3 2)
      = Return full ∧
    StronglySorted lex_lt full ∧
    (∀ t, t ∈ full ↔ is_multiset 3 (Z.to_nat 2) t) ∧
    m = take 3 full ∧
    length m = 3%nat ∧
    StronglySorted lex_lt m ∧
    (3 = 3 → 2 = 2 → 3%nat = 3%nat → m = [[1;1];[1;2];[1;3]]) ∧
    (3%nat = 0%nat → m = []).
Proof.
  split; [lia|]. split; [lia|]. split; [vm_compute; lia|]. split; [lia|].
  apply (undersized_count_truncates 4 3 2 3);
    [lia | lia | vm_compute; lia | lia].
Defined.

(** C6. The call throws, and then it throws [InvalidArgument], exactly when
    [n <= 0] or [d < 0].  The check comes before everything else: the
    exception is there even when the loop condition is never evaluated
    ([fuel = 0]), and it carries no table.  For [n >= 1] and [d >= 0] nothing
    is thrown, whatever [count] is. *)
Theorem throws_iff_invalid (fuel : nat) (n d : Z) (N : nat) :
  (get_multisets_Cpp fuel n d N = Throw InvalidArgument ↔ n ≤ 0 ∨ d < 0) ∧
  (∀ e, get_multisets_Cpp fuel n d N = Throw e ↔
        e = InvalidArgument ∧ (n ≤ 0 ∨ d < 0)) ∧
  (get_multisets_Cpp 0 n d N = Throw InvalidArgument ↔ n ≤ 0 ∨ d < 0) ∧
  (1 ≤ n → 0 ≤ d → ∀ e, get_multisets_Cpp fuel n d N ≠ Throw e).
Proof.
  assert (Hgen : ∀ f e, get_multisets_Cpp f n d N = Throw e ↔
                        e = InvalidArgument ∧ (n ≤ 0 ∨ d < 0)).
  { intros f e. unfold get_multisets_Cpp.
    destruct (Z.leb_spec n 0); simpl.
    - split; [intros [= <-]; split; [done|lia] | by intros [-> _]].
    - destruct (Z.ltb_spec d 0); simpl.
      + split; [intros [= <-]; split; [done|lia] | by intros [-> _]].
      + destruct (while_loop f n (Z.to_nat d) N _);
          (split; [done | intros [_ ?]; lia]). }
  split; [|split; [apply Hgen|split]].
  - rewrite Hgen. split; [by intros [_ ?] | by intros ?].
  - rewrite Hgen. split; [by intros [_ ?] | by intros ?].
  - intros ? ? e [_ ?]%Hgen. lia.
Qed.

(** C7. For [n >= 1], [d >= 0] and every [count], every row of the returned
    table has [d] entries, is non-decreasing and has all its entries in
    [1..n]. *)
Theorem rows_are_multisets (fuel : nat) (n d : Z) (N : nat) :
  1 ≤ n → 0 ≤ d → (N < fuel)%nat →
  ∃ m, get_multisets_Cpp fuel n d N = Return m ∧
       Forall (λ row, length row = Z.to_nat d ∧ Sorted Z.le row ∧
                      Forall (λ x, 1 ≤ x ≤ n) row) m.
Proof.
  intros Hn Hd Hfuel. exists (rows n (Z.to_nat d) N).
  split; [by apply get_multisets_Cpp_rows|].
  rewrite rows_multisets by done.
  assert (Hall : Forall (is_multiset n (Z.to_nat d)) (multisets n (Z.to_nat d))).
  { apply Forall_forall. intros t. by apply elem_of_multisets. }
  apply Forall_app. split; [by apply Forall_take|].
  apply Forall_replicate.
  eapply (proj1 (Forall_forall _ _) Hall), last_Some_elem_of.
  by apply last_multisets.
Qed.

Lemma rows_are_multisets_witness :
  1 ≤ 2 ∧ 0 ≤ 3 ∧ (6 < 7)%nat ∧
  ∃ m, get_multisets_Cpp 7 2 3 6 = Return m ∧
       Forall (λ row, length row = Z.to_nat 3 ∧ Sorted Z.le row ∧
                      Forall (λ x, 1 ≤ x ≤ 2) row) m.
Proof.
  split; [lia|]. split; [lia|]. split; [lia|].
  apply (rows_are_multisets 7 2 3 6); lia.
Defined.

(** C8. For [n >= 1], [d >= 0] (so also for [d >= 1]) and every [count], two
    consecutive rows [a] and [b] of the returned table satisfy [a <= b] in
    lexicographic order, and they are equal only when [a] is [d] copies of
    [n]. *)
Theorem consecutive_rows_weakly_increase (fuel : nat) (n d : Z) (N : nat) :
  1 ≤ n → 0 ≤ d → (N < fuel)%nat →
  ∃ m, get_multisets_Cpp fuel n d N = Return m ∧
       ∀ k a b, m !! k = Some a → m !! S k = Some b →
                lex_le a b ∧ (a = b → a = replicate (Z.to_nat d) n).
Proof.
  intros Hn Hd Hfuel. exists (rows n (Z.to_nat d) N).
  split; [by apply get_multisets_Cpp_rows|].
  intros k a b Ha Hb.
  assert (HkN : (S k < N)%nat).
  { apply lookup_lt_Some in Hb. by rewrite length_rows in Hb. }
  rewrite lookup_rows in Ha, Hb by lia. rewrite Nat.iter_succ in Hb.
  apply (inj Some) in Ha, Hb. subst a b.
  set (a := Nat.iter k (successor n) (replicate (Z.to_nat d) 1)).
  destruct (decide (S k < length (multisets n (Z.to_nat d)))%nat) as [Hk|Hk].
  - pose proof (lookup_multisets n (Z.to_nat d) Hn k ltac:(lia)) as HEa.
    pose proof (lookup_multisets n (Z.to_nat d) Hn (S k) Hk) as HEb.
    rewrite Nat.iter_succ in HEb. fold a in HEa, HEb.
    assert (Hlt : lex_lt a (successor n a)).
    { pose proof (sorted_multisets n (Z.to_nat d)) as Hs.
      rewrite <- (take_drop_middle _ _ _ HEb) in Hs.
      eapply (StronglySorted_app_1_elem_of _ _ _ _ _ Hs).
      - apply list_elem_of_lookup. exists k.
        rewrite lookup_take_lt by lia. done.
      - by left. }
    split; [by left|]. intros Heq. rewrite <- Heq in Hlt.
    by apply lex_lt_irrefl in Hlt.
  - assert (a = replicate (Z.to_nat d) n) as ->
      by (apply iter_successor_ge; [done|lia]).
    rewrite successor_terminal. split; [by right|done].
Qed.

Lemma consecutive_rows_weakly_increase_witness :
  1 ≤ 2 ∧ 0 ≤ 2 ∧ (5 < 6)%nat ∧
  ∃ m, get_multisets_Cpp 6 2 2 5 = Return m ∧
       ∀ k a b, m !! k = Some a → m !! S k = Some b →
                lex_le a b ∧ (a = b → a = replicate (Z.to_nat 2) 2).
Proof.
  split; [lia|]. split; [lia|]. split; [lia|].
  apply (consecutive_rows_weakly_increase 6 2 2 5); lia.
Defined.

(** C9. The result of a call is determined by [n], [d] and [count] alone: it
    does not depend on how many steps the loop is allowed beyond the ones it
    needs, nor on what the freshly allocated matrix holds before its rows are
    written. *)
Theorem result_is_determined (n d : Z) (N fuel1 fuel2 : nat) :
  (N < fuel1)%nat → (N < fuel2)%nat →
  get_multisets_Cpp fuel1 n d N = get_multisets_Cpp fuel2 n d N ∧
  get_multisets_Cpp fuel1 n d N ≠ OutOfFuel ∧
  ∀ init1 init2 : list (list Z),
    length init1 = N → length init2 = N →
    result_matrix <$>
      while_loop fuel1 n (Z.to_nat d) N
        {| result_matrix := init1;
           current_multiset := replicate (Z.to_nat d) 1; row_index := 0 |} =
    result_matrix <$>
      while_loop fuel2 n (Z.to_nat d) N
        {| result_matrix := init2;
           current_multiset := replicate (Z.to_nat d) 1; row_index := 0 |}.
Proof.
  intros H1 H2. split; [|split].
  - unfold get_multisets_Cpp. destruct ((n <=? 0) || (d <? 0)); [done|].
    by rewrite !while_loop_initial.
  - unfold get_multisets_Cpp. destruct ((n <=? 0) || (d <? 0)); [done|].
    by rewrite while_loop_initial.
  - intros init1 init2 Hi1 Hi2. by rewrite !while_loop_from.
Qed.

Lemma result_is_determined_witness :
  (3 < 4)%nat ∧ (3 < 9)%nat ∧
  get_multisets_Cpp 4 2 2 3 = get_multisets_Cpp 9 2 2 3.
Proof.
  split; [lia|]. split; [lia|].
  apply (result_is_determined 2 2 3 4 9); lia.
Defined.

(** C10. For [n >= 1], [d >= 0] and every [count] the call terminates: given
    [count + 1] or more evaluations of the loop condition, the loop ends after
    exactly [count] passes through its body with [row_index = count], and the
    table has exactly [count] rows; with [count] evaluations or fewer it has
    not ended yet.  For [count = 0] one evaluation is enough and the table is
    empty. *)
Theorem loop_runs_count_times (fuel : nat) (n d : Z) (N : nat) :
  1 ≤ n → 0 ≤ d → (N < fuel)%nat →
  while_loop fuel n (Z.to_nat d) N (initial_state (Z.to_nat d) N) =
    Some (Nat.iter N (loop_body n (Z.to_nat d)) (initial_state (Z.to_nat d) N)) ∧
  row_index
    (Nat.iter N (loop_body n (Z.to_nat d)) (initial_state (Z.to_nat d) N)) = N ∧
  (∃ m, get_multisets_Cpp fuel n d N = Return m ∧ length m = N) ∧
  (∀ fuel', (fuel' ≤ N)%nat → get_multisets_Cpp fuel' n d N = OutOfFuel) ∧
  (N = 0%nat → get_multisets_Cpp 1 n d N = Return []).
Proof.
  intros Hn Hd Hfuel. split; [|split; [|split; [|split]]].
  - rewrite while_loop_Some by (simpl; lia). simpl. by rewrite Nat.sub_0_r.
  - rewrite row_index_iter. simpl. lia.
  - exists (rows n (Z.to_nat d) N).
    split; [by apply get_multisets_Cpp_rows | apply length_rows].
  - intros fuel' Hf. unfold get_multisets_Cpp.
    destruct (Z.leb_spec n 0); [lia|]. destruct (Z.ltb_spec d 0); [lia|]. simpl.
    by rewrite while_loop_None by (simpl; lia).
  - intros ->. by rewrite get_multisets_Cpp_rows by (done || lia).
Qed.

Lemma loop_runs_count_times_witness :
  1 ≤ 3 ∧ 0 ≤ 2 ∧ (6 < 7)%nat ∧
  ∃ m, get_multisets_Cpp 7 3 2 6 = Return m ∧ length m = 6%nat.
Proof.
  split; [lia|]. split; [lia|]. split; [lia|].
  apply (loop_runs_count_times 7 3 2 6); lia.
Defined.

(** ** Further properties of the loops *)

Lemma StronglySorted_lookup_lt (L : list (list Z)) (i j : nat) (a b : list Z) :
  StronglySorted lex_lt L → (i < j)%nat →
  L !! i = Some a → L !! j = Some b → lex_lt a b.
Proof.
  intros Hs Hij Ha Hb. rewrite <- (take_drop_middle _ _ _ Hb) in Hs.
  eapply (StronglySorted_app_1_elem_of _ _ _ _ _ Hs).
  - apply list_elem_of_lookup. exists i. by rewrite lookup_take_lt.
  - by left.
Qed.

(** A multiset sits at some position [k] of the enumeration; its successor
    sits at the next position, unless the multiset is the last one. *)
Lemma successor_in_multisets (n : Z) (d : nat) (cur : list Z) :
  1 ≤ n → is_multiset n d cur →
  ∃ k, multisets n d !! k = Some cur ∧
       (multisets n d !! S k = Some (successor n cur) ∨
        (S k = length (multisets n d) ∧ cur = replicate d n ∧
         successor n cur = cur)).
Proof.
  intros Hn (k & Hk)%elem_of_multisets%list_elem_of_lookup; [|done].
  exists k. split; [done|].
  pose proof (lookup_lt_Some _ _ _ Hk) as Hlt.
  pose proof Hk as Hk'. rewrite lookup_multisets in Hk' by done.
  apply (inj Some) in Hk'.
  destruct (decide (S k < length (multisets n d))%nat) as [HS|HS].
  - left. by rewrite lookup_multisets, Nat.iter_succ, Hk' by done.
  - right. split; [lia|].
    assert (cur = replicate d n) as ->
      by (rewrite <- Hk'; apply iter_successor_ge; [done|lia]).
    split; [done|apply successor_terminal].
Qed.

(** X1. The [for] loop keeps the tuple a multiset: from a non-decreasing
    [d]-tuple over [1..n] it produces a non-decreasing [d]-tuple over
    [1..n]. *)
Theorem for_loop_keeps_multiset (n : Z) (d : nat) (cur : list Z) :
  1 ≤ n → is_multiset n d cur → is_multiset n d (for_loop n d d cur).
Proof.
  intros Hn Hm. pose proof Hm as (Hlen & _). subst d.
  rewrite for_loop_successor.
  destruct (successor_in_multisets n _ cur Hn Hm) as (k & Hk & [HS|(_ & _ & ->)]);
    [|done].
  apply elem_of_multisets; [done|]. apply list_elem_of_lookup. by exists (S k).
Qed.

Lemma for_loop_keeps_multiset_witness :
  1 ≤ 3 ∧ is_multiset 3 3 [1; 3; 3] ∧ is_multiset 3 3 (for_loop 3 3 3 [1; 3; 3]).
Proof.
  assert (Hm : is_multiset 3 3 [1; 3; 3]).
  { split; [done|]. split; repeat constructor; lia. }
  split; [lia|]. split; [exact Hm|].
  apply (for_loop_keeps_multiset 3 3 [1; 3; 3]); [lia|exact Hm].
Defined.

(** X2. On a multiset the [for] loop moves strictly upwards in lexicographic
    order, except on [d] copies of [n], which is the only multiset that it
    leaves unchanged. *)
Theorem for_loop_strictly_increases (n : Z) (d : nat) (cur : list Z) :
  1 ≤ n → is_multiset n d cur →
  (cur ≠ replicate d n → lex_lt cur (for_loop n d d cur)) ∧
  (for_loop n d d cur = cur ↔ cur = replicate d n).
Proof.
  intros Hn Hm. pose proof Hm as (Hlen & _).
  assert (for_loop n d d cur = successor n cur) as ->
    by (rewrite <- Hlen; apply for_loop_successor).
  destruct (successor_in_multisets n d cur Hn Hm)
    as (k & Hk & [HS|(_ & -> & Hfix)]).
  - assert (Hlt : lex_lt cur (successor n cur)).
    { eapply (StronglySorted_lookup_lt _ k (S k));
        [apply sorted_multisets|lia|done..]. }
    split; [by intros _|]. split.
    + intros Heq. rewrite Heq in Hlt. by apply lex_lt_irrefl in Hlt.
    + intros ->. pose proof (last_multisets n d Hn) as Hl.
      rewrite last_lookup in Hl.
      pose proof (lookup_lt_Some _ _ _ HS) as HSlt.
      pose proof (NoDup_lookup _ _ _ _
        (StronglySorted_NoDup _ (sorted_multisets n d)) Hk Hl). lia.
  - split; [done|]. by rewrite Hfix.
Qed.

Lemma for_loop_strictly_increases_witness :
  1 ≤ 3 ∧ is_multiset 3 2 [2; 3] ∧ lex_lt [2; 3] (for_loop 3 2 2 [2; 3]).
Proof.
  assert (Hm : is_multiset 3 2 [2; 3]).
  { split; [done|]. split; repeat constructor; lia. }
  split; [lia|]. split; [exact Hm|].
  apply (for_loop_strictly_increases 3 2 [2; 3]); [lia|exact Hm|].
  intros [=].
Defined.

(** X3. The [for] loop produces the immediate successor: no multiset lies
    strictly between a multiset and the tuple the loop makes of it. *)
Theorem for_loop_immediate_successor (n : Z) (d : nat) (cur t : list Z) :
  1 ≤ n → is_multiset n d cur → is_multiset n d t →
  lex_lt cur t → lex_le (for_loop n d d cur) t.
Proof.
  intros Hn Hm Ht Hlt. pose proof Hm as (Hlen & _).
  assert (for_loop n d d cur = successor n cur) as ->
    by (rewrite <- Hlen; apply for_loop_successor).
  pose proof (sorted_multisets n d) as Hs.
  apply elem_of_multisets, list_elem_of_lookup in Ht as (j & Hj); [|done].
  destruct (successor_in_multisets n d cur Hn Hm) as (k & Hk & Hnext).
  assert (Hkj : (k < j)%nat).
  { destruct (decide (k < j)%nat) as [|Hge]; [done|]. exfalso.
    destruct (decide (j = k)) as [->|Hne].
    - rewrite Hk in Hj. apply (inj Some) in Hj as ->.
      by apply lex_lt_irrefl in Hlt.
    - apply (lex_lt_irrefl cur), (lex_lt_trans _ t); [done|].
      eapply (StronglySorted_lookup_lt _ j k); [done|lia|done..]. }
  destruct Hnext as [HS|(Hlast & _)].
  - destruct (decide (j = S k)) as [->|Hne].
    + rewrite HS in Hj. apply (inj Some) in Hj as ->. by right.
    + left. eapply (StronglySorted_lookup_lt _ (S k) j); [done|lia|done..].
  - apply lookup_lt_Some in Hj. lia.
Qed.

Lemma for_loop_immediate_successor_witness :
  1 ≤ 3 ∧ is_multiset 3 2 [1; 3] ∧ is_multiset 3 2 [3; 3] ∧
  lex_lt [1; 3] [3; 3] ∧ lex_le (for_loop 3 2 2 [1; 3]) [3; 3].
Proof.
  assert (Hm : is_multiset 3 2 [1; 3]).
  { split; [done|]. split; repeat constructor; lia. }
  assert (Ht : is_multiset 3 2 [3; 3]).
  { split; [done|]. split; repeat constructor; lia. }
  assert (Hlt : lex_lt [1; 3] [3; 3]) by (simpl; lia).
  split; [lia|]. do 3 (split; [done|]).
  apply (for_loop_immediate_successor 3 2 [1; 3] [3; 3]); [lia|done..].
Defined.

Lemma take_rows (n : Z) (d N1 N2 : nat) :
  (N1 ≤ N2)%nat → take N1 (rows n d N2) = rows n d N1.
Proof.
  intros HN. apply list_eq. intros k.
  destruct (decide (k < N1)%nat) as [Hk|Hk].
  - by rewrite lookup_take_lt, !lookup_rows by lia.
  - rewrite lookup_take_ge by lia. symmetry.
    apply lookup_ge_None. rewrite length_rows. lia.
Qed.

(** X4. Asking for fewer rows gives a prefix of the larger table: for
    [N1 <= N2] the table of [N1] rows is the first [N1] rows of the table of
    [N2] rows, whether or not either count is the binomial coefficient. *)
Theorem smaller_count_gives_prefix
  (fuel1 fuel2 : nat) (n d : Z) (N1 N2 : nat) :
  1 ≤ n → 0 ≤ d → (N1 ≤ N2)%nat → (N1 < fuel1)%nat → (N2 < fuel2)%nat →
  ∃ m1 m2, get_multisets_Cpp fuel1 n d N1 = Return m1 ∧
           get_multisets_Cpp fuel2 n d N2 = Return m2 ∧
           m1 = take N1 m2.
Proof.
  intros Hn Hd HN H1 H2.
  exists (rows n (Z.to_nat d) N1), (rows n (Z.to_nat d) N2).
  split; [by apply get_multisets_Cpp_rows|].
  split; [by apply get_multisets_Cpp_rows|].
  by rewrite take_rows.
Qed.

Lemma smaller_count_gives_prefix_witness :
  1 ≤ 3 ∧ 0 ≤ 2 ∧ (2 ≤ 8)%nat ∧ (2 < 3)%nat ∧ (8 < 9)%nat ∧
  ∃ m1 m2, get_multisets_Cpp 3 3 2 2 = Return m1 ∧
           get_multisets_Cpp 9 3 2 8 = Return m2 ∧
           m1 = take 2 m2.
Proof.
  do 5 (split; [lia|]).
  apply (smaller_count_gives_prefix 3 9 3 2 2 8); lia.
Defined.

(** X5. The table is built by the [for] loop alone: its first row, when there
    is one, is [d] ones, and each further row is what the [for] loop makes of
    the row above it. *)
Theorem next_row_is_for_loop (fuel : nat) (n d : Z) (N : nat) :
  1 ≤ n → 0 ≤ d → (N < fuel)%nat →
  ∃ m, get_multisets_Cpp fuel n d N = Return m ∧
       ((0 < N)%nat → m !! 0%nat = Some (replicate (Z.to_nat d) 1)) ∧
       ∀ k a, (S k < N)%nat → m !! k = Some a →
              m !! S k = Some (for_loop n (Z.to_nat d) (Z.to_nat d) a).
Proof.
  intros Hn Hd Hfuel. exists (rows n (Z.to_nat d) N).
  split; [by apply get_multisets_Cpp_rows|]. split.
  - intros HN. by rewrite lookup_rows.
  - intros k a Hk Ha. rewrite lookup_rows in Ha by lia.
    apply (inj Some) in Ha. rewrite lookup_rows, Nat.iter_succ, Ha by done.
    f_equal. symmetry.
    assert (length a = Z.to_nat d) as Hlen
      by (by rewrite <- Ha, length_iter_successor, length_replicate).
    rewrite <- Hlen. apply for_loop_successor.
Qed.

Lemma next_row_is_for_loop_witness :
  1 ≤ 3 ∧ 0 ≤ 2 ∧ (4 < 5)%nat ∧
  ∃ m, get_multisets_Cpp 5 3 2 4 = Return m ∧
       ((0 < 4)%nat → m !! 0%nat = Some (replicate (Z.to_nat 2) 1)) ∧
       ∀ k a, (S k < 4)%nat → m !! k = Some a →
              m !! S k = Some (for_loop 3 (Z.to_nat 2) (Z.to_nat 2) a).
Proof.
  do 3 (split; [lia|]).
  apply (next_row_is_for_loop 5 3 2 4); lia.
Defined.

Lemma fmap_seq_const {A} (f : nat → A) (c : A) (N : nat) :
  (∀ k, f k = c) → f <$> seq 0 N = replicate N c.
Proof.
  intros Hf. apply list_eq. intros k.
  destruct (decide (k < N)%nat) as [Hk|Hk].
  - by rewrite list_lookup_fmap, lookup_seq_lt, lookup_replicate_2, <- (Hf k)
      by done.
  - rewrite !(proj2 (lookup_ge_None _ _)); [done| |].
    + rewrite length_replicate. lia.
    + rewrite length_fmap, length_seq. lia.
Qed.

(** X6. For [d = 0] the [for] loop has nothing to scan: whatever [n >= 1] and
    [count] are, the table is [count] rows without columns. *)
Theorem no_columns_gives_empty_rows (fuel : nat) (n : Z) (N : nat) :
  1 ≤ n → (N < fuel)%nat →
  get_multisets_Cpp fuel n 0 N = Return (replicate N []).
Proof.
  intros Hn Hfuel. rewrite get_multisets_Cpp_rows by (done || lia).
  f_equal. apply fmap_seq_const. intros k.
  apply (nil_length_inv _). by rewrite length_iter_successor.
Qed.

Lemma no_columns_gives_empty_rows_witness :
  1 ≤ 4 ∧ (3 < 4)%nat ∧ get_multisets_Cpp 4 4 0 3 = Return [[]; []; []].
Proof.
  do 2 (split; [lia|]). apply (no_columns_gives_empty_rows 4 4 3); lia.
Defined.

(** X7. For [n = 1] no entry can be raised: whatever [d >= 0] and [count]
    are, every row of the table is [d] ones. *)
Theorem single_value_gives_ones (fuel : nat) (d : Z) (N : nat) :
  0 ≤ d → (N < fuel)%nat →
  get_multisets_Cpp fuel 1 d N = Return (replicate N (replicate (Z.to_nat d) 1)).
Proof.
  intros Hd Hfuel. rewrite get_multisets_Cpp_rows by (done || lia).
  f_equal. apply fmap_seq_const. intros k. apply iter_successor_terminal.
Qed.

Lemma single_value_gives_ones_witness :
  0 ≤ 2 ∧ (3 < 4)%nat ∧
  get_multisets_Cpp 4 1 2 3 = Return [[1; 1]; [1; 1]; [1; 1]].
Proof.
  do 2 (split; [lia|]). apply (single_value_gives_ones 4 2 3); lia.
Defined.

Lemma for_loop_checked_Some (n : Z) (cur : list Z) (k : nat) :
  (k ≤ length cur)%nat →
  for_loop_checked n (length cur) k cur = Some (for_loop n (length cur) k cur).
Proof.
  induction k as [|i IH]; intros Hk; [done|]. simpl.
  rewrite (list_lookup_lookup_total_lt cur i) by lia.
  destruct (cur !!! i <? n); [|apply IH; lia].
  rewrite list_lookup_total_insert_eq by lia.
  destruct (Nat.ltb_spec i (length cur - 1)); [|done].
  unfold subvec_fill_checked. rewrite length_insert.
  destruct (Nat.leb_spec (i + 1) (length cur - 1)); [|lia].
  destruct (Nat.ltb_spec (length cur - 1) (length cur)); [done|lia].
Qed.

(** X8. The loops stay inside the vector and the matrix: in each of the
    [count] passes through the loop body the row that is written exists and
    has the size of [current_multiset], every [current_multiset[i]] is inside
    the vector and [subvec(i + 1, d - 1)] is a valid range, so the body with
    bounds checks does what the body without them does. *)
Theorem loop_body_in_bounds (n : Z) (d N j : nat) :
  (j < N)%nat →
  loop_body_checked n d (Nat.iter j (loop_body n d) (initial_state d N)) =
  Some (Nat.iter (S j) (loop_body n d) (initial_state d N)).
Proof.
  intros Hj. rewrite Nat.iter_succ, iter_loop_body by lia.
  unfold loop_body_checked, loop_body.
  cbn [result_matrix current_multiset row_index].
  rewrite lookup_app_r by (rewrite length_rows; lia).
  rewrite length_rows, Nat.sub_diag, lookup_replicate_2 by lia.
  rewrite length_replicate, length_iter_successor, length_replicate.
  rewrite Nat.eqb_refl.
  set (cur := Nat.iter j (successor n) (replicate d 1)).
  assert (Hlen : length cur = d)
    by (unfold cur; by rewrite length_iter_successor, length_replicate).
  assert (for_loop_checked n d d cur = Some (for_loop n d d cur)) as ->
    by (rewrite <- Hlen; by apply for_loop_checked_Some).
  done.
Qed.

Lemma loop_body_in_bounds_witness :
  (2 < 6)%nat ∧
  loop_body_checked 3 2 (Nat.iter 2 (loop_body 3 2) (initial_state 2 6)) =
  Some (Nat.iter 3 (loop_body 3 2) (initial_state 2 6)).
Proof.
  split; [lia|]. apply (loop_body_in_bounds 3 2 6 2). lia.
Defined.

(** X9. A count at or above the binomial coefficient loses no multiset and
    adds no foreign row: the rows of the table are then exactly the
    non-decreasing [d]-tuples over [1..n]. *)
Theorem large_count_has_all_multisets (fuel : nat) (n d : Z) (N : nat) :
  1 ≤ n → 0 ≤ d → (multiset_count n d ≤ N)%nat → (N < fuel)%nat →
  ∃ m, get_multisets_Cpp fuel n d N = Return m ∧
       ∀ t, t ∈ m ↔ is_multiset n (Z.to_nat d) t.
Proof.
  intros Hn Hd HN Hfuel. exists (rows n (Z.to_nat d) N).
  split; [by apply get_multisets_Cpp_rows|]. intros t.
  rewrite rows_multisets, <- length_multisets in * by done.
  rewrite take_ge, elem_of_app, elem_of_multisets by (done || lia).
  split; [|by left]. intros [?|Ht]; [done|].
  apply elem_of_replicate in Ht as [-> _].
  apply elem_of_multisets; [done|].
  by apply last_Some_elem_of, last_multisets.
Qed.

Lemma large_count_has_all_multisets_witness :
  1 ≤ 2 ∧ 0 ≤ 2 ∧ (multiset_count 2 2 ≤ 5)%nat ∧ (5 < 6)%nat ∧
  ∃ m, get_multisets_Cpp 6 2 2 5 = Return m ∧
       ∀ t, t ∈ m ↔ is_multiset 2 (Z.to_nat 2) t.
Proof.
  split; [lia|]. split; [lia|]. split; [vm_compute; lia|]. split; [lia|].
  apply (large_count_has_all_multisets 6 2 2 5);
    [lia | lia | vm_compute; lia | lia].
Defined.
